(** * dampener: a request-throttling toolkit for HTTP handlers

    A shallow embedding of the Go package [dampener] (the decision engine:
    the in-memory event store, the throttle rule and the chain of rules that
    guards a downstream handler) together with the properties its
    specification states about it.

    Conventions of the embedding.
    - [time.Time] is an instant on an unbounded time line, counted in
      nanoseconds ([Z]); [time.Duration] is an [int64] count of nanoseconds,
      and arithmetic on it wraps around as Go's does.
    - [time.Now()] is a read of the clock: the world carries the sequence of
      readings the clock will give and the number of reads made so far.
    - Go's [nil] error is [None].
    - The reader/writer lock of the store is not modelled: every operation
      below is one atomic step of a sequential execution. *)

From Stdlib Require Import ZArith List Lia.
From stdpp Require Import gmap strings list fin_maps.

Local Open Scope Z_scope.

(** ** Machine integers *)

Module Int64.
Definition min_int : Z := - 2 ^ 63.
Definition max_int : Z := 2 ^ 63 - 1.

(** The value an [int64] holds after an operation whose exact result is [z]. *)
Definition wrap (z : Z) : Z := (z + 2 ^ 63) mod 2 ^ 64 - 2 ^ 63.

Definition in_range (z : Z) : Prop := min_int <= z <= max_int.

Definition add (a b : Z) : Z := wrap (a + b).
Definition mul (a b : Z) : Z := wrap (a * b).

(** [int64(n)] for an [int] n. *)
Definition of_int (n : Z) : Z := wrap n.
End Int64.

(** ** Time *)

Abbreviation Time := Z (only parsing).
Abbreviation Duration := Z (only parsing).

(** [t.After(u)]: is [t] strictly later than [u]. *)
Definition After (t u : Time) : bool := u <? t.

(** [t.Before(u)]: is [t] strictly earlier than [u]. *)
Definition Before (t u : Time) : bool := t <? u.

(** [t.Add(d)]. *)
Definition Add (t : Time) (d : Duration) : Time := t + d.

(** ** Errors, requests and the world *)

Definition error : Type := option string.
Definition nil : error := None.

(** What a call comes to: it returns, or a run-time panic unwinds it. *)
Inductive outcome (A : Type) : Type :=
| Returned (a : A)
| Panicked.
Arguments Returned {A} a.
Arguments Panicked {A}.

(** The part of [*http.Request] a classification predicate can look at. *)
Record Request : Type := mkRequest {
  Method : string;
  URL : string;
  RemoteAddr : string
}.

(** The world a rule runs in: the clock ([clock w n] is what the [n]-th call
    of [time.Now()] returns, [ticks w] counts the calls made), the lines
    [ShouldThrottle] has printed on standard output (the maximum and the
    count of each one), and the state [St] of the storage backend. *)
Record World (St : Type) : Type := mkWorld {
  clock : nat -> Time;
  ticks : nat;
  stdout : list (Z * Z);
  heap : St
}.
Arguments mkWorld {St} clock ticks stdout heap.
Arguments clock {St} w n.
Arguments ticks {St} w.
Arguments stdout {St} w.
Arguments heap {St} w.

Definition set_heap {St} (w : World St) (h : St) : World St :=
  mkWorld (clock w) (ticks w) (stdout w) h.

(** [time.Now()] *)
Definition Now {St} (w : World St) : Time * World St :=
  (clock w (ticks w), mkWorld (clock w) (S (ticks w)) (stdout w) (heap w)).

(** [fmt.Println("\n\nmax count: ", max, count)] *)
Definition Println {St} (max count : Z) (w : World St) : World St :=
  mkWorld (clock w) (ticks w) (stdout w ++ [(max, count)]) (heap w).

(** The current instant: the reading the clock gives if it is read now. *)
Definition current_time {St} (w : World St) : Time := clock w (ticks w).

(** ** The Storage interface *)

Module Storage.
Record t (St : Type) : Type := mk {
  EventsInDuration : string -> Duration -> World St -> (Z * error) * World St;
  AppendEvent : string -> Time -> World St -> error * World St;
  Clean : string -> Time -> World St -> outcome error * World St
}.
Arguments mk {St}.
Arguments EventsInDuration {St}.
Arguments AppendEvent {St}.
Arguments Clean {St}.
End Storage.

(** ** MemoryStorage: a map from key to the slice of its events *)

Module MemoryStorage.

(** [s.s[k]]: indexing the map at a key it does not hold gives the nil
    slice. *)
Definition log (s : gmap string (list Time)) (k : string) : list Time :=
  default [] (s !! k).

Definition AppendEvent (k : string) (t : Time)
    (w : World (gmap string (list Time))) : error * World (gmap string (list Time)) :=
  let s := heap w in
  let s1 := match s !! k with
            | Some _ => s
            | None => <[k := []]> s
            end in
  (nil, set_heap w (<[k := log s1 k ++ [t]]> s1)).

(** The body of [for _, v := range s.s[k]] in [EventsInDuration]: the clock
    is read anew for every event looked at. *)
Fixpoint count_events {St} (d : Duration) (l : list Time) (counter : Z)
    (w : World St) : Z * World St :=
  match l with
  | [] => (counter, w)
  | v :: l' =>
      let (now, w1) := Now w in
      if After v (Add now (Int64.mul (-1) d))
      then count_events d l' (Int64.add counter 1) w1
      else count_events d l' counter w1
  end.

Definition EventsInDuration (k : string) (d : Duration)
    (w : World (gmap string (list Time))) : (Z * error) * World (gmap string (list Time)) :=
  let (counter, w1) := count_events d (log (heap w) k) 0 w in
  ((counter, nil), w1).

(** The loop of [Clean]: the index at which it stops skipping, if it
    does. *)
Fixpoint first_not_before (to : Time) (l : list Time) (i : Z) : option Z :=
  match l with
  | [] => None
  | v :: l' => if Before v to then first_not_before to l' (i + 1) else Some i
  end.

(** The slice expression [l[lo:]]; a bound out of range panics. *)
Definition slice_from {A} (l : list A) (lo : Z) : outcome (list A) :=
  if (lo <? 0) || (Z.of_nat (length l) <? lo) then Panicked
  else Returned (drop (Z.to_nat lo) l).

Definition Clean (k : string) (to : Time)
    (w : World (gmap string (list Time))) : outcome error * World (gmap string (list Time)) :=
  let s := heap w in
  match first_not_before to (log s k) 0 with
  | None => (Returned nil, w)
  | Some i =>
      match slice_from (log s k) (i - 1) with
      | Panicked => (Panicked, w)
      | Returned l' => (Returned nil, set_heap w (<[k := l']> s))
      end
  end.

(** [NewMemoryStorage()] *)
Definition NewMemoryStorage : gmap string (list Time) := ∅.

Definition storage : Storage.t (gmap string (list Time)) :=
  Storage.mk EventsInDuration AppendEvent Clean.

End MemoryStorage.

(** ** MockStorage: a storage whose operations are given by the test *)

Module MockStorage.
Record t : Type := mk {
  MockEventsInDuration : option (string -> Duration -> Z * error);
  MockAppendEvent : option (string -> Time -> error);
  MockClean : option (string -> Time -> error)
}.

Definition EventsInDuration (s : t) (k : string) (d : Duration)
    (w : World unit) : (Z * error) * World unit :=
  match MockEventsInDuration s with
  | Some f => (f k d, w)
  | None => ((0, nil), w)
  end.

Definition AppendEvent (s : t) (k : string) (t0 : Time)
    (w : World unit) : error * World unit :=
  match MockAppendEvent s with
  | Some f => (f k t0, w)
  | None => (nil, w)
  end.

Definition Clean (s : t) (k : string) (t0 : Time)
    (w : World unit) : outcome error * World unit :=
  match MockClean s with
  | Some f => (Returned (f k t0), w)
  | None => (Returned nil, w)
  end.

Definition storage (s : t) : Storage.t unit :=
  Storage.mk (EventsInDuration s) (AppendEvent s) (Clean s).
End MockStorage.

(** ** Options of a rule and of a chain *)

Module ThrottleOptions.
Record t (St : Type) : Type := mk {
  GetPrefix : string;
  GetMaxCount : Z;
  GetDuration : Duration;
  MatchCriteria : Request -> bool;
  GetStorage : Storage.t St
}.
Arguments mk {St}.
Arguments GetPrefix {St}.
Arguments GetMaxCount {St}.
Arguments GetDuration {St}.
Arguments MatchCriteria {St}.
Arguments GetStorage {St}.
End ThrottleOptions.

(** [newDampenerThrottleOptions(prefix, count, duration, f, storage)] *)
Definition newDampenerThrottleOptions {St} (prefix : string) (count : Z)
    (duration : Duration) (f : Request -> bool) (storage : Storage.t St)
    : ThrottleOptions.t St :=
  ThrottleOptions.mk prefix count duration f storage.

Module ThrottlerOptions.
Record t : Type := mk {
  GetStatus : Z;
  GetMessage : list Byte.byte
}.
End ThrottlerOptions.

(** [newDampenerPolicyOptions(statusCode, message)] *)
Definition newDampenerPolicyOptions (statusCode : Z) (message : list Byte.byte)
    : ThrottlerOptions.t :=
  ThrottlerOptions.mk statusCode message.

(** ** The Throttle interface and its implementation *)

Module Throttle.
Record t (St : Type) : Type := mk {
  ShouldThrottle : Request -> World St -> (bool * error) * World St;
  AppendEvent : Request -> World St -> World St
}.
Arguments mk {St}.
Arguments ShouldThrottle {St}.
Arguments AppendEvent {St}.
End Throttle.

Module dampenerThrottle.
Import ThrottleOptions.

Definition ShouldThrottle {St} (options : ThrottleOptions.t St) (r : Request)
    (w : World St) : (bool * error) * World St :=
  if MatchCriteria options r then
    let '((count, err), w1) :=
      Storage.EventsInDuration (GetStorage options)
        (GetPrefix options) (GetDuration options) w in
    match err with
    | Some e => ((false, Some e), w1)
    | None =>
        let w2 := Println (GetMaxCount options) count w1 in
        if Int64.of_int (GetMaxCount options) <? count
        then ((true, nil), w2)
        else ((false, nil), w2)
    end
  else ((false, nil), w).

Definition AppendEvent {St} (options : ThrottleOptions.t St) (_ : Request)
    (w : World St) : World St :=
  let (now, w1) := Now w in
  snd (Storage.AppendEvent (GetStorage options) (GetPrefix options) now w1).

(** [newDampenerThrottle(options)], without the clean-up goroutine it
    starts. *)
Definition newDampenerThrottle {St} (options : ThrottleOptions.t St)
    : Throttle.t St :=
  Throttle.mk (ShouldThrottle options) (AppendEvent options).
End dampenerThrottle.

(** ** The chain of rules in front of a handler *)

(** The calls [ServeHTTP] makes on its collaborators: on the rule at index
    [i] of the chain (for [ShouldThrottle], with what it returned), on the
    logger, on the response writer and on the downstream handler. *)
Inductive Call : Type :=
| CallShouldThrottle (i : nat) (yes : bool) (err : error)
| CallAppendEvent (i : nat)
| CallLogPrintf (msg : string)
| CallWriteHeader (status : Z)
| CallWrite (body : list Byte.byte)
| CallNext.

(** A request being served: the calls made so far and the world. *)
Record Exchange (St : Type) : Type := mkExchange {
  calls : list Call;
  world : World St
}.
Arguments mkExchange {St} calls world.
Arguments calls {St} e.
Arguments world {St} e.

Module dampenerPolicy.
Record t (St : Type) : Type := mk {
  throttles : list (Throttle.t St);
  options : ThrottlerOptions.t;
  next : Request -> World St -> World St
}.
Arguments mk {St}.
Arguments throttles {St}.
Arguments options {St}.
Arguments next {St}.

Definition GetThrottles {St} (d : t St) : list (Throttle.t St) := throttles d.
Definition GetOptions {St} (d : t St) : ThrottlerOptions.t := options d.

(** [for _, t := range d.throttles { ... }; d.next.ServeHTTP(w, r)], from
    the rule at index [i] on, [ts] being the rules still to visit. *)
Fixpoint range_throttles {St} (d : t St) (r : Request) (i : nat)
    (ts : list (Throttle.t St)) (x : Exchange St) : Exchange St :=
  match ts with
  | [] => mkExchange (calls x ++ [CallNext]) (next d r (world x))
  | t0 :: ts' =>
      let '((yes, err), w1) := Throttle.ShouldThrottle t0 r (world x) in
      if yes then
        mkExchange
          (calls x ++ [CallShouldThrottle i yes err;
                       CallLogPrintf "should throttle, sending response";
                       CallWriteHeader (ThrottlerOptions.GetStatus (GetOptions d));
                       CallWrite (ThrottlerOptions.GetMessage (GetOptions d))])
          w1
      else
        let w2 := Throttle.AppendEvent t0 r w1 in
        range_throttles d r (S i) ts'
          (mkExchange (calls x ++ [CallShouldThrottle i yes err; CallAppendEvent i]) w2)
  end.

Definition ServeHTTP {St} (d : t St) (r : Request) (w : World St) : Exchange St :=
  range_throttles d r 0 (throttles d) (mkExchange [] w).
End dampenerPolicy.

(** [newDampenerPolicy(next, options, throttles...)] *)
Definition newDampenerPolicy {St} (next : Request -> World St -> World St)
    (options : ThrottlerOptions.t) (throttles : list (Throttle.t St))
    : dampenerPolicy.t St :=
  dampenerPolicy.mk throttles options next.

(** ** Notions the properties are stated with *)

(** The specification's count for a window: the events of a log whose
    timestamp is strictly after [now - window]. *)
Definition spec_events_in_window (now : Time) (window : Duration)
    (l : list Time) : Z :=
  Z.of_nat (length (filter (fun v => now - window < v) l)).

(** The specification's eviction: the events of a log at or after the
    cutoff, in their order. *)
Definition spec_retained (cutoff : Time) (l : list Time) : list Time :=
  filter (fun v => cutoff <= v) l.

(** Whether the event [v], at index [i] of a log scanned from the world [w],
    is in the window at the moment the scan looks at it, which is the
    [i]-th reading of the clock after [w]. *)
Definition in_window_when_read {St} (w : World St) (d : Duration)
    (iv : nat * Time) : Prop :=
  clock w (ticks w + iv.1) - d < iv.2.

#[global] Instance in_window_when_read_dec {St} (w : World St) (d : Duration)
    (iv : nat * Time) : Decision (in_window_when_read w d iv).
Proof. unfold in_window_when_read. apply _. Defined.

(** The same count, as a recursion along the log from the [n]-th reading. *)
Fixpoint count_as_read (clk : nat -> Time) (n : nat) (d : Duration)
    (l : list Time) : Z :=
  match l with
  | [] => 0
  | v :: l' => (if clk n - d <? v then 1 else 0) + count_as_read clk (S n) d l'
  end.



(** ** Sample data *)

Definition sample_clock : nat -> Time := fun n => 14 + Z.of_nat n.

Definition sample_world {St} (h : St) : World St := mkWorld sample_clock 0 [] h.

Definition sample_request : Request := mkRequest "GET" "/" "10.0.0.1:4000".


(** A store whose count fails. *)
Definition storage_down : MockStorage.t :=
  MockStorage.mk (Some (fun _ _ => (0, Some "storage down"%string))) None None.




(** ** The callers of the store and of the chain *)

(** One turn of the loop [newDampenerThrottle] leaves running, once its
    sleep is over: [Clean(prefix, time.Now())] on the rule's storage, run
    without another call coming in between. *)
Definition clean_up_turn {St} (options : ThrottleOptions.t St) (w : World St)
    : outcome error * World St :=
  let (now, w1) := Now w in
  Storage.Clean (ThrottleOptions.GetStorage options)
    (ThrottleOptions.GetPrefix options) now w1.

(** A run of [AppendEvent(k, t)] calls on the in-memory store, one for each
    [t] of [ts] in turn. *)
Definition append_events (k : string) (ts : list Time)
    (w : World (gmap string (list Time))) : World (gmap string (list Time)) :=
  foldl (fun w0 t => snd (MemoryStorage.AppendEvent k t w0)) w ts.

(** Requests served one after the other, each from the world the one before
    it left: the calls made for each, and the world at the end. *)
Fixpoint serve_requests {St} (d : dampenerPolicy.t St) (rs : list Request)
    (w : World St) : list (list Call) * World St :=
  match rs with
  | [] => ([], w)
  | r :: rs' =>
      let x := dampenerPolicy.ServeHTTP d r w in
      let (cs, w') := serve_requests d rs' (world x) in
      (calls x :: cs, w')
  end.


(** * Properties *)

Import ThrottleOptions.

(** ** Arithmetic of [int64] *)

Lemma wrap_in_range (z : Z) : Int64.in_range z -> Int64.wrap z = z.
Proof.
  unfold Int64.in_range, Int64.min_int, Int64.max_int, Int64.wrap.
  intros Hz. rewrite Z.mod_small; lia.
Qed.

Lemma mul_minus_one (d : Duration) :
  Int64.in_range d -> d <> Int64.min_int -> Int64.mul (-1) d = - d.
Proof.
  intros Hd Hmin. unfold Int64.mul. apply wrap_in_range.
  unfold Int64.in_range, Int64.min_int, Int64.max_int in *. lia.
Qed.

Lemma add_one_in_range (c : Z) :
  0 <= c < Int64.max_int -> Int64.add c 1 = c + 1.
Proof.
  intros Hc. unfold Int64.add. apply wrap_in_range.
  unfold Int64.in_range, Int64.min_int, Int64.max_int in *. lia.
Qed.

(** ** The in-memory store *)

Section MemoryStorageFacts.
Import MemoryStorage.

Implicit Types (s : gmap string (list Time)) (w : World (gmap string (list Time))).
Implicit Types (k : string) (l : list Time).

Lemma log_insert_eq s k l : log (<[k := l]> s) k = l.
Proof. unfold log. by rewrite lookup_insert_eq. Qed.

Lemma log_insert_ne s k k' l : k <> k' -> log (<[k := l]> s) k' = log s k'.
Proof. intros Hne. unfold log. by rewrite lookup_insert_ne. Qed.

(** Scanning a log reads the clock once per event and touches nothing
    else. *)
Lemma count_events_world {St} (d : Duration) l (c : Z) (w : World St) :
  snd (count_events d l c w)
  = mkWorld (clock w) (ticks w + length l)%nat (stdout w) (heap w).
Proof.
  revert c w. induction l as [|v l IH]; intros c w; simpl.
  - rewrite Nat.add_0_r. by destruct w.
  - destruct (After v _); rewrite IH; simpl; f_equal; lia.
Qed.

Lemma EventsInDuration_world k (d : Duration) w :
  snd (EventsInDuration k d w)
  = mkWorld (clock w) (ticks w + length (log (heap w) k))%nat (stdout w) (heap w).
Proof.
  unfold EventsInDuration.
  pose proof (count_events_world d (log (heap w) k) 0 w) as H.
  destruct (count_events d (log (heap w) k) 0 w) as [c w1]. exact H.
Qed.

Lemma EventsInDuration_no_error k (d : Duration) w :
  snd (fst (EventsInDuration k d w)) = nil.
Proof.
  unfold EventsInDuration.
  by destruct (count_events d (log (heap w) k) 0 w).
Qed.

(** What [AppendEvent] leaves in the map. *)
Lemma AppendEvent_heap k (t : Time) w :
  heap (snd (AppendEvent k t w)) = <[k := log (heap w) k ++ [t]]> (heap w).
Proof.
  unfold AppendEvent, log. simpl.
  destruct (heap w !! k) as [l|] eqn:E.
  - by rewrite E.
  - rewrite lookup_insert_eq. simpl. by rewrite insert_insert_eq.
Qed.

Lemma AppendEvent_log k (t : Time) w :
  log (heap (snd (AppendEvent k t w))) k = log (heap w) k ++ [t].
Proof. rewrite AppendEvent_heap. apply log_insert_eq. Qed.

(** When every event is stale the loop of [Clean] runs off the end. *)
Lemma first_not_before_all_stale (to : Time) l (i : Z) :
  Forall (fun v => v < to) l -> first_not_before to l i = None.
Proof.
  intros H. revert i. induction H as [|v l Hv _ IH]; intros i; simpl; [done|].
  unfold Before. destruct (Z.ltb_spec v to); [apply IH | lia].
Qed.

(** Otherwise it stops at the first event that is not stale. *)
Lemma first_not_before_split (to : Time) (stale : list Time) (v : Time) l (i : Z) :
  Forall (fun u => u < to) stale -> to <= v ->
  first_not_before to (stale ++ v :: l) i = Some (i + Z.of_nat (length stale)).
Proof.
  intros H Hv. revert i. induction H as [|u stale Hu _ IH]; intros i; simpl.
  - unfold Before. destruct (Z.ltb_spec v to); [lia | f_equal; lia].
  - unfold Before. destruct (Z.ltb_spec u to); [|lia]. rewrite IH. f_equal; lia.
Qed.

End MemoryStorageFacts.

(** ** Clean *)

Section CleanFacts.
Import MemoryStorage.

Implicit Types (w : World (gmap string (list Time))) (k : string) (l : list Time).

(** Every event stale: [Clean] returns and removes nothing. *)
Lemma Clean_all_stale k (to : Time) w :
  Forall (fun v => v < to) (log (heap w) k) ->
  Clean k to w = (Returned nil, w).
Proof.
  intros H. unfold Clean. by rewrite first_not_before_all_stale.
Qed.

(** The first event of the log is not stale: the slice expression is
    [s.s[k][-1:]] and the call panics, the map as it was. *)
Lemma Clean_fresh_head k (to : Time) w (v : Time) l :
  log (heap w) k = v :: l -> to <= v ->
  Clean k to w = (Panicked, w).
Proof.
  intros E Hv. unfold Clean. rewrite E. simpl.
  unfold Before. destruct (Z.ltb_spec v to); [lia|]. reflexivity.
Qed.

(** Some stale events and then one that is not: the last stale event is
    kept along with what follows it. *)
Lemma Clean_stale_prefix k (to : Time) w (stale : list Time) (u v : Time) l :
  log (heap w) k = stale ++ u :: v :: l ->
  Forall (fun x => x < to) stale -> u < to -> to <= v ->
  Clean k to w = (Returned nil, set_heap w (<[k := u :: v :: l]> (heap w))).
Proof.
  intros E Hs Hu Hv. unfold Clean. rewrite E.
  replace (stale ++ u :: v :: l) with ((stale ++ [u]) ++ v :: l)
    by (by rewrite <- app_assoc).
  rewrite first_not_before_split;
    [| apply Forall_app; split; [done | by constructor] | done].
  unfold slice_from. rewrite !length_app. simpl.
  destruct (_ || _) eqn:B.
  - apply orb_true_iff in B as [B|B]; apply Z.ltb_lt in B; lia.
  - replace (Z.to_nat (0 + Z.of_nat (length stale + 1) - 1)) with (length stale) by lia.
    rewrite <- app_assoc. simpl. by rewrite drop_app_length.
Qed.

(** C1. [Clean(key, cutoff)] does not remove exactly the events older than
    the cutoff. On the log [1; 5] with cutoff [3] it returns without an
    error and leaves the log as it was: the stale event [1] remains, where
    the specification retains [5] alone. *)
Theorem Clean_leaves_stale_event :
  let w := sample_world ({["ip" := [1; 5]]} : gmap string (list Time)) in
  fst (Clean "ip" 3 w) = Returned nil /\
  log (heap (snd (Clean "ip" 3 w))) "ip" = [1; 5] /\
  spec_retained 3 [1; 5] = [5].
Proof. repeat split. Qed.

(** C9. [Clean(k, cutoff)] leaves the log of every key other than [k] as it
    was, whether it returns or panics. *)
Theorem Clean_other_keys_unchanged k k' (to : Time) w :
  k <> k' -> heap (snd (Clean k to w)) !! k' = heap w !! k'.
Proof.
  intros Hne. unfold Clean.
  destruct (first_not_before to (log (heap w) k) 0) as [i|]; [|done].
  destruct (slice_from (log (heap w) k) (i - 1)) as [l'|]; [|done].
  simpl. by rewrite lookup_insert_ne.
Qed.

Lemma Clean_other_keys_unchanged_witness :
  ("a" : string) <> "b" /\
  heap (snd (Clean "a" 4
    (sample_world ({["a" := [1; 2; 5]; "b" := [1; 2]]} : gmap string (list Time))))) !! "b"
  = Some [1; 2].
Proof.
  split; [discriminate|].
  rewrite (Clean_other_keys_unchanged "a" "b"); [reflexivity | discriminate].
Defined.

End CleanFacts.

(** ** The throttle rule *)

Section RuleFacts.
Import MemoryStorage.

(** C8. When the classification predicate rejects the request,
    [ShouldThrottle] returns [(false, nil)] and leaves the world as it found
    it, whatever the storage backend is and holds: the storage is not
    called. *)
Theorem ShouldThrottle_unclassified {St} (options : ThrottleOptions.t St)
    (r : Request) (w : World St) :
  MatchCriteria options r = false ->
  dampenerThrottle.ShouldThrottle options r w = ((false, nil), w).
Proof. intros H. unfold dampenerThrottle.ShouldThrottle. by rewrite H. Qed.

Lemma ShouldThrottle_unclassified_witness :
  let options :=
    newDampenerThrottleOptions "ip" 0 60000000000
      (fun r => String.eqb (Method r) "POST") MemoryStorage.storage in
  let w := sample_world ({["ip" := [10; 11; 12; 13]]} : gmap string (list Time)) in
  MatchCriteria options sample_request = false /\
  dampenerThrottle.ShouldThrottle options sample_request w = ((false, nil), w).
Proof.
  split; [reflexivity|].
  apply ShouldThrottle_unclassified. reflexivity.
Defined.

(** C7. When the request is classified and the storage's count fails,
    [ShouldThrottle] returns [(false, err)] with the storage's error, and
    the world is the one that single storage call left: the call is not
    made again. *)
Theorem ShouldThrottle_storage_error {St} (options : ThrottleOptions.t St)
    (r : Request) (w w1 : World St) (count : Z) (e : string) :
  MatchCriteria options r = true ->
  Storage.EventsInDuration (GetStorage options)
    (GetPrefix options) (GetDuration options) w = ((count, Some e), w1) ->
  dampenerThrottle.ShouldThrottle options r w = ((false, Some e), w1).
Proof.
  intros Hf Hs. unfold dampenerThrottle.ShouldThrottle. by rewrite Hf, Hs.
Qed.

Lemma ShouldThrottle_storage_error_witness :
  let options :=
    newDampenerThrottleOptions "ip" 1 60000000000 (fun _ => true)
      (MockStorage.storage storage_down) in
  dampenerThrottle.ShouldThrottle options sample_request (sample_world tt)
  = ((false, Some "storage down"), sample_world tt).
Proof.
  intros options.
  apply (ShouldThrottle_storage_error options sample_request
           (sample_world tt) (sample_world tt) 0 "storage down");
    reflexivity.
Defined.

(** C5. The rule's [AppendEvent] reads the clock and calls the storage's
    [AppendEvent] with the rule's prefix and that reading, for every request
    and every classification predicate, the ones that reject the request
    included. On the in-memory store the log of the prefix grows by that
    one event and nothing else in the map changes. *)
Theorem rule_AppendEvent_unconditional (prefix : string) (max : Z)
    (duration : Duration) (f : Request -> bool) (r : Request) :
  (forall St (storage : Storage.t St) (w : World St),
     dampenerThrottle.AppendEvent
       (newDampenerThrottleOptions prefix max duration f storage) r w
     = snd (Storage.AppendEvent storage prefix (current_time w) (snd (Now w)))) /\
  (forall w : World (gmap string (list Time)),
     let w' := dampenerThrottle.AppendEvent
                 (newDampenerThrottleOptions prefix max duration f MemoryStorage.storage) r w in
     log (heap w') prefix = log (heap w) prefix ++ [current_time w] /\
     delete prefix (heap w') = delete prefix (heap w) /\
     ticks w' = S (ticks w)).
Proof.
  split.
  - intros St storage w. reflexivity.
  - intros w. cbn zeta.
    unfold dampenerThrottle.AppendEvent. simpl.
    rewrite log_insert_eq.
    split; [|split; [|reflexivity]].
    + unfold log. simpl.
      destruct (heap w !! prefix) as [l|] eqn:E; simpl.
      * by rewrite E.
      * by rewrite lookup_insert_eq.
    + destruct (heap w !! prefix) as [l|] eqn:E.
      * by rewrite delete_insert_eq.
      * by rewrite !delete_insert_eq.
Qed.

(** C10. On the in-memory store [ShouldThrottle] leaves the map of logs
    exactly as it found it, for every rule, request and world. *)
Theorem ShouldThrottle_read_only (prefix : string) (max : Z)
    (duration : Duration) (f : Request -> bool) (r : Request)
    (w : World (gmap string (list Time))) :
  heap (snd (dampenerThrottle.ShouldThrottle
               (newDampenerThrottleOptions prefix max duration f MemoryStorage.storage) r w))
  = heap w.
Proof.
  unfold dampenerThrottle.ShouldThrottle. simpl.
  destruct (f r); [|done].
  pose proof (EventsInDuration_world prefix duration w) as Hw.
  pose proof (EventsInDuration_no_error prefix duration w) as He.
  destruct (EventsInDuration prefix duration w) as [[count err] w1].
  simpl in Hw, He. subst err w1. unfold nil.
  by destruct (_ <? _).
Qed.

End RuleFacts.

(** ** EventsInDuration *)

Section WindowFacts.
Import MemoryStorage.

Implicit Types (w : World (gmap string (list Time))) (k : string) (l : list Time).

Lemma count_as_read_bounds (clk : nat -> Time) (n : nat) (d : Duration) l :
  0 <= count_as_read clk n d l <= Z.of_nat (length l).
Proof.
  revert n. induction l as [|v l IH]; intros n; simpl; [lia|].
  specialize (IH (S n)). destruct (_ <? _); lia.
Qed.

(** As long as the counter cannot wrap, the loop counts the events that are
    in the window when it looks at them. *)
Lemma count_events_value {St} (d : Duration) l (c : Z) (w : World St) :
  Int64.in_range d -> d <> Int64.min_int ->
  0 <= c -> c + Z.of_nat (length l) <= Int64.max_int ->
  fst (count_events d l c w) = c + count_as_read (clock w) (ticks w) d l.
Proof.
  intros Hd Hmin. revert c w.
  induction l as [|v l IH]; intros c w Hc Hlen; simpl; [lia|].
  simpl in Hlen. rewrite mul_minus_one by done.
  unfold After, Add.
  replace (clock w (ticks w) + - d) with (clock w (ticks w) - d) by lia.
  destruct (_ <? v).
  - rewrite add_one_in_range by lia. rewrite IH by lia. simpl. lia.
  - rewrite IH by lia. simpl. lia.
Qed.

Lemma count_as_read_indexed {St} (w : World St) (d : Duration) l (m : nat) :
  count_as_read (clock w) (ticks w + m) d l
  = Z.of_nat (length (filter (in_window_when_read w d)
                        (imap (fun i v => ((m + i)%nat, v)) l))).
Proof.
  revert m. induction l as [|v l IH]; intros m; [done|].
  rewrite imap_cons. simpl count_as_read.
  replace (S (ticks w + m)) with (ticks w + S m)%nat by lia.
  rewrite IH.
  rewrite (imap_ext ((fun i v => ((m + i)%nat, v)) ∘ S)
                    (fun i v => ((S m + i)%nat, v)))
    by (intros; simpl; f_equal; lia).
  rewrite filter_cons. unfold in_window_when_read at 2. simpl fst. simpl snd.
  rewrite Nat.add_0_r.
  destruct (Z.ltb_spec (clock w (ticks w + m) - d) v);
    case_decide; try lia; simpl; lia.
Qed.

(** Under a clock that stands still for the length of the scan, this is the
    specification's count. *)
Lemma count_as_read_still (clk : nat -> Time) (n : nat) (d : Duration) l (now : Time) :
  (forall i, (i < length l)%nat -> clk (n + i)%nat = now) ->
  count_as_read clk n d l = spec_events_in_window now d l.
Proof.
  unfold spec_events_in_window.
  revert n. induction l as [|v l IH]; intros n Hclk; [done|].
  simpl count_as_read. rewrite filter_cons.
  rewrite IH by (intros i Hi; rewrite <- (Hclk (S i)) by (simpl; lia); f_equal; lia).
  specialize (Hclk 0%nat). rewrite Nat.add_0_r in Hclk. rewrite Hclk by (simpl; lia).
  destruct (Z.ltb_spec (now - d) v); case_decide; try lia; simpl; lia.
Qed.

Lemma EventsInDuration_value k (d : Duration) w :
  Int64.in_range d -> d <> Int64.min_int ->
  Z.of_nat (length (log (heap w) k)) <= Int64.max_int ->
  fst (fst (EventsInDuration k d w))
  = count_as_read (clock w) (ticks w) d (log (heap w) k).
Proof.
  intros Hd Hmin Hlen. unfold EventsInDuration.
  pose proof (count_events_value d (log (heap w) k) 0 w Hd Hmin) as H.
  destruct (count_events d (log (heap w) k) 0 w) as [c w1]. simpl in *.
  rewrite H; lia.
Qed.

(** C4, as the code has it. For a window other than the least [int64] and a
    log short enough for an [int64] counter, [EventsInDuration(key, window)]
    returns no error and reads the clock once for every event of the key's
    log, leaving the store as it was; its count is the number of events
    that are strictly after [now - window] for the reading [now] taken when
    the event is looked at. Hence: under a clock that gives one reading
    [now] throughout the call the count is the number of events strictly
    after [now - window]; for a key with no log it is 0; and under a clock
    that does not go back, an event at or before [now - window], [now]
    being the time the call starts, is not counted. *)
Theorem EventsInDuration_counts_as_read k (d : Duration) w :
  Int64.in_range d -> d <> Int64.min_int ->
  Z.of_nat (length (log (heap w) k)) <= Int64.max_int ->
  let l := log (heap w) k in
  let count := fst (fst (EventsInDuration k d w)) in
  snd (fst (EventsInDuration k d w)) = nil /\
  snd (EventsInDuration k d w)
    = mkWorld (clock w) (ticks w + length l)%nat (stdout w) (heap w) /\
  count = Z.of_nat (length (filter (in_window_when_read w d) (imap pair l))) /\
  (forall now, (forall i, (i < length l)%nat -> clock w (ticks w + i)%nat = now) ->
     count = spec_events_in_window now d l) /\
  (heap w !! k = None -> count = 0) /\
  ((forall i, (i < length l)%nat -> current_time w <= clock w (ticks w + i)%nat) ->
   forall i v, l !! i = Some v -> v <= current_time w - d ->
     ~ in_window_when_read w d (i, v)).
Proof.
  intros Hd Hmin Hlen l count.
  assert (Hcount : count = count_as_read (clock w) (ticks w) d l)
    by (by apply EventsInDuration_value).
  split; [apply EventsInDuration_no_error|].
  split; [apply EventsInDuration_world|].
  split; [|split; [|split]].
  - rewrite Hcount.
    replace (ticks w) with (ticks w + 0)%nat at 1 by lia.
    rewrite count_as_read_indexed. done.
  - intros now Hclk. rewrite Hcount. by apply count_as_read_still.
  - intros Hnone. rewrite Hcount. subst l. unfold log. by rewrite Hnone.
  - intros Hmono i v Hi Hv. unfold in_window_when_read. simpl.
    apply lookup_lt_Some in Hi. specialize (Hmono i Hi). lia.
Qed.

End WindowFacts.

Section WindowExamples.
Import MemoryStorage.

(** C4 fails as it is stated. Two events stamped [5] and a window of [10]:
    the clock reads [14] when the scan looks at the first event and [15]
    when it looks at the second, so the first is counted and the second is
    not. The call returns 1, where the count for the time the call starts is
    2, and no single instant [now] has a count of 1. *)
Lemma EventsInDuration_not_one_instant :
  let w := sample_world ({["ip" := [5; 5]]} : gmap string (list Time)) in
  fst (fst (EventsInDuration "ip" 10 w)) = 1 /\
  spec_events_in_window (current_time w) 10 (log (heap w) "ip") = 2 /\
  forall now, spec_events_in_window now 10 (log (heap w) "ip") <> 1.
Proof.
  split; [reflexivity|]. split; [reflexivity|].
  intros now. change (log _ "ip") with [5; 5].
  unfold spec_events_in_window.
  rewrite !filter_cons, filter_nil.
  repeat case_decide; simpl; lia.
Qed.

(** The least window: [-1 * d] wraps back to [d], the cutoff falls some 292
    years before [now] instead of after it, and every event is counted
    where none is after [now - window]. *)
Lemma EventsInDuration_least_window :
  let w := mkWorld (fun _ => 20) 0 []
             ({["ip" := [5; 15]]} : gmap string (list Time)) in
  fst (fst (EventsInDuration "ip" Int64.min_int w)) = 2 /\
  spec_events_in_window 20 Int64.min_int (log (heap w) "ip") = 0.
Proof. split; reflexivity. Qed.

Lemma EventsInDuration_counts_as_read_witness :
  let w := mkWorld (fun _ => 20) 0 []
             ({["ip" := [5; 15; 12]]} : gmap string (list Time)) in
  (Int64.in_range 10 /\ 10 <> Int64.min_int /\
   Z.of_nat (length (log (heap w) "ip")) <= Int64.max_int) /\
  fst (fst (EventsInDuration "ip" 10 w)) = spec_events_in_window 20 10 [5; 15; 12].
Proof.
  intros w.
  assert (H1 : Int64.in_range 10) by (unfold Int64.in_range, Int64.min_int, Int64.max_int; lia).
  assert (H2 : 10 <> Int64.min_int) by (unfold Int64.min_int; lia).
  assert (H3 : Z.of_nat (length (log (heap w) "ip")) <= Int64.max_int)
    by (vm_compute; discriminate).
  split; [by repeat split|].
  destruct (EventsInDuration_counts_as_read "ip" 10 w H1 H2 H3)
    as (_ & _ & _ & Hstill & _).
  apply (Hstill 20). reflexivity.
Defined.

End WindowExamples.

(** ** Threshold and window *)

Section ThresholdFacts.
Import MemoryStorage.

Implicit Types (w : World (gmap string (list Time))) (l : list Time).

Variables (prefix : string) (max : Z) (D : Duration) (f : Request -> bool).

Local Abbreviation options :=
  (newDampenerThrottleOptions prefix max D f MemoryStorage.storage).

(** One [AppendEvent] of the rule: a reading of the clock, appended to the
    log of the prefix. *)
Lemma rule_AppendEvent_memory (r : Request) w :
  dampenerThrottle.AppendEvent options r w
  = mkWorld (clock w) (S (ticks w)) (stdout w)
      (<[prefix := log (heap w) prefix ++ [clock w (ticks w)]]> (heap w)).
Proof.
  unfold dampenerThrottle.AppendEvent. simpl. unfold set_heap. simpl.
  f_equal. unfold log.
  destruct (heap w !! prefix) as [l|] eqn:E; simpl.
  - by rewrite E.
  - rewrite lookup_insert_eq. simpl. by rewrite insert_insert_eq.
Qed.

(** A run of [AppendEvent] calls appends the readings of the clock, in
    order. *)
Lemma appends_world (rs : list Request) w :
  let w' := foldl (fun w0 r => dampenerThrottle.AppendEvent options r w0) w rs in
  clock w' = clock w /\
  ticks w' = (ticks w + length rs)%nat /\
  log (heap w') prefix
  = log (heap w) prefix ++ (clock w <$> seq (ticks w) (length rs)).
Proof.
  revert w. induction rs as [|r rs IH]; intros w; cbn zeta.
  - simpl. rewrite app_nil_r. split; [done|]. split; [lia | done].
  - simpl foldl. rewrite rule_AppendEvent_memory.
    destruct (IH (mkWorld (clock w) (S (ticks w)) (stdout w)
                    (<[prefix := log (heap w) prefix ++ [clock w (ticks w)]]> (heap w))))
      as (Hc & Ht & Hl).
    rewrite Hc, Ht, Hl. simpl. rewrite log_insert_eq.
    split; [done|]. split; [lia|]. by rewrite <- app_assoc.
Qed.

(** Every event is in the window when the scan reaches it: all are
    counted. *)
Lemma count_as_read_all (clk : nat -> Time) (n : nat) l :
  (forall i v, l !! i = Some v -> clk (n + i)%nat - D < v) ->
  count_as_read clk n D l = Z.of_nat (length l).
Proof.
  revert n. induction l as [|v l IH]; intros n H; [done|].
  simpl count_as_read.
  rewrite IH by (intros i u Hi; specialize (H (S i) u Hi);
                 by replace (S n + i)%nat with (n + S i)%nat by lia).
  specialize (H 0%nat v eq_refl). rewrite Nat.add_0_r in H.
  destruct (Z.ltb_spec (clk n - D) v); [|lia].
  simpl length. lia.
Qed.

(** The decision of a rule over the in-memory store, for a request it
    classifies. *)
Lemma ShouldThrottle_memory (r : Request) w :
  f r = true -> Int64.in_range D -> D <> Int64.min_int ->
  Z.of_nat (length (log (heap w) prefix)) <= Int64.max_int ->
  let count := count_as_read (clock w) (ticks w) D (log (heap w) prefix) in
  dampenerThrottle.ShouldThrottle options r w
  = ((Int64.of_int max <? count, nil),
     Println max count
       (mkWorld (clock w) (ticks w + length (log (heap w) prefix))%nat
          (stdout w) (heap w))).
Proof.
  intros Hf Hd Hmin Hlen count.
  unfold dampenerThrottle.ShouldThrottle. simpl. rewrite Hf.
  pose proof (EventsInDuration_world prefix D w) as Hw.
  pose proof (EventsInDuration_no_error prefix D w) as He.
  pose proof (EventsInDuration_value prefix D w Hd Hmin Hlen) as Hc.
  destruct (EventsInDuration prefix D w) as [[c err] w1].
  simpl in Hw, He, Hc. subst err w1 c. unfold nil. fold count.
  by destruct (_ <? _).
Qed.

End ThresholdFacts.

Section Threshold.
Import MemoryStorage.

(** C2. A rule with threshold [N] and window [D] whose predicate classifies
    every request, over the in-memory store, starting with no event under
    its prefix. All the readings of the clock made along the way are less
    than [D] apart. After [N] calls of [AppendEvent], [ShouldThrottle]
    returns [(false, nil)]; after one more, it returns [(true, nil)]. *)
Theorem throttles_after_threshold (prefix : string) (N : nat) (D : Duration)
    (f : Request -> bool) (rs : list Request) (r1 r2 r3 : Request)
    (w0 : World (gmap string (list Time))) :
  (forall r, f r = true) ->
  Int64.in_range D ->
  Z.of_nat N < Int64.max_int ->
  log (heap w0) prefix = [] ->
  length rs = N ->
  (forall i j, (i <= j < 3 * N + 2)%nat ->
     clock w0 (ticks w0 + j)%nat - clock w0 (ticks w0 + i)%nat < D) ->
  let rule := dampenerThrottle.newDampenerThrottle
                (newDampenerThrottleOptions prefix (Z.of_nat N) D f MemoryStorage.storage) in
  let w1 := foldl (fun w r => Throttle.AppendEvent rule r w) w0 rs in
  let w2 := Throttle.AppendEvent rule r2 (snd (Throttle.ShouldThrottle rule r1 w1)) in
  fst (Throttle.ShouldThrottle rule r1 w1) = (false, nil) /\
  fst (Throttle.ShouldThrottle rule r3 w2) = (true, nil).
Proof.
  intros Hf HD HN Hempty Hrs Hnear rule w1 w2.
  assert (HDpos : 0 < D).
  { specialize (Hnear 0%nat 0%nat). rewrite Z.sub_diag in Hnear. apply Hnear. lia. }
  assert (Hmin : D <> Int64.min_int) by (unfold Int64.min_int; lia).
  assert (HofN : Int64.of_int (Z.of_nat N) = Z.of_nat N).
  { apply wrap_in_range. unfold Int64.in_range, Int64.min_int, Int64.max_int in *. lia. }
  subst w2.
  change (Throttle.ShouldThrottle rule) with
    (dampenerThrottle.ShouldThrottle
       (newDampenerThrottleOptions prefix (Z.of_nat N) D f MemoryStorage.storage)).
  change (Throttle.AppendEvent rule) with
    (dampenerThrottle.AppendEvent
       (newDampenerThrottleOptions prefix (Z.of_nat N) D f MemoryStorage.storage)).
  assert (Hw1 : w1 = foldl (fun w r =>
                  dampenerThrottle.AppendEvent
                    (newDampenerThrottleOptions prefix (Z.of_nat N) D f MemoryStorage.storage) r w)
                  w0 rs) by reflexivity.
  clearbody w1. clear rule.
  destruct (appends_world prefix (Z.of_nat N) D f rs w0) as (Hc1 & Ht1 & Hl1).
  rewrite <- Hw1 in Hc1, Ht1, Hl1. clear Hw1.
  rewrite Hempty, Hrs in Hl1. rewrite app_nil_l in Hl1.
  rewrite Hrs in Ht1.
  assert (Hlen1 : length (log (heap w1) prefix) = N)
    by (by rewrite Hl1, length_fmap, length_seq).
  (* the first decision *)
  assert (Hcount1 : count_as_read (clock w1) (ticks w1) D (log (heap w1) prefix) = Z.of_nat N).
  { rewrite count_as_read_all; [by rewrite Hlen1|].
    intros i v Hi. rewrite Hl1, list_lookup_fmap in Hi.
    destruct (seq (ticks w0) N !! i) as [n|] eqn:E; [|done].
    apply lookup_seq in E as [-> HiN]. injection Hi as <-.
    rewrite Hc1, Ht1.
    specialize (Hnear i (N + i)%nat).
    replace (ticks w0 + N + i)%nat with (ticks w0 + (N + i))%nat by lia.
    lia. }
  pose proof (ShouldThrottle_memory prefix (Z.of_nat N) D f r1 w1 (Hf r1) HD Hmin) as H1.
  rewrite Hlen1 in H1. specialize (H1 ltac:(lia)). cbn zeta in H1.
  rewrite Hcount1, HofN, Z.ltb_irrefl in H1.
  split; [by rewrite H1|].
  (* one more event *)
  rewrite H1. simpl snd.
  rewrite rule_AppendEvent_memory. simpl.
  set (w2 := mkWorld _ _ _ _).
  assert (Hl2 : log (heap w2) prefix
                = (clock w0 <$> seq (ticks w0) N) ++ [clock w0 (ticks w0 + 2 * N)%nat]).
  { subst w2. simpl. rewrite log_insert_eq, Hl1, Hc1, Ht1. do 3 f_equal. lia. }
  assert (Hlen2 : length (log (heap w2) prefix) = S N).
  { rewrite Hl2, length_app, length_fmap, length_seq. simpl. lia. }
  assert (Hcount2 : count_as_read (clock w2) (ticks w2) D (log (heap w2) prefix)
                    = Z.of_nat (S N)).
  { rewrite count_as_read_all; [by rewrite Hlen2|].
    intros i v Hi. rewrite Hl2 in Hi.
    assert (HiN : (i < S N)%nat).
    { apply lookup_lt_Some in Hi.
      rewrite length_app, length_fmap, length_seq in Hi. simpl in Hi. lia. }
    subst w2. simpl. rewrite Hc1, Ht1.
    match goal with
    | |- clock w0 ?a - D < _ =>
        replace a with (ticks w0 + (2 * N + 1 + i))%nat by lia
    end.
    destruct (decide (i < N)%nat) as [Hlt|Hge].
    - rewrite lookup_app_l in Hi by (by rewrite length_fmap, length_seq).
      rewrite list_lookup_fmap in Hi.
      destruct (seq (ticks w0) N !! i) as [n|] eqn:E; [|done].
      apply lookup_seq in E as [-> _]. injection Hi as <-.
      specialize (Hnear i (2 * N + 1 + i)%nat). lia.
    - assert (i = N) as -> by lia.
      rewrite lookup_app_r in Hi by (rewrite length_fmap, length_seq; lia).
      rewrite length_fmap, length_seq, Nat.sub_diag in Hi. injection Hi as <-.
      specialize (Hnear (N + (N + 0))%nat (2 * N + 1 + N)%nat). lia. }
  pose proof (ShouldThrottle_memory prefix (Z.of_nat N) D f r3 w2 (Hf r3) HD Hmin) as H2.
  rewrite Hlen2 in H2. specialize (H2 ltac:(lia)). cbn zeta in H2.
  rewrite Hcount2, HofN in H2. rewrite H2. simpl.
  destruct (Z.ltb_spec (Z.of_nat N) (Z.of_nat (S N))); [done | lia].
Qed.

End Threshold.

Lemma throttles_after_threshold_witness :
  let rule := dampenerThrottle.newDampenerThrottle
                (newDampenerThrottleOptions "ip" 2 60000000000 (fun _ => true)
                   MemoryStorage.storage) in
  let w0 := sample_world (MemoryStorage.NewMemoryStorage) in
  let w1 := foldl (fun w r => Throttle.AppendEvent rule r w) w0
              [sample_request; sample_request] in
  let w2 := Throttle.AppendEvent rule sample_request
              (snd (Throttle.ShouldThrottle rule sample_request w1)) in
  (MemoryStorage.log (heap w0) "ip" = [] /\
   forall i j, (i <= j < 3 * 2 + 2)%nat ->
     clock w0 (ticks w0 + j)%nat - clock w0 (ticks w0 + i)%nat < 60000000000) /\
  fst (Throttle.ShouldThrottle rule sample_request w1) = (false, nil) /\
  fst (Throttle.ShouldThrottle rule sample_request w2) = (true, nil).
Proof.
  intros rule w0 w1 w2.
  assert (Hnear : forall i j, (i <= j < 3 * 2 + 2)%nat ->
            clock w0 (ticks w0 + j)%nat - clock w0 (ticks w0 + i)%nat < 60000000000)
    by (intros i j Hij; simpl; unfold sample_clock; lia).
  split; [split; [reflexivity | exact Hnear]|].
  apply (throttles_after_threshold "ip" 2 60000000000 (fun _ => true)
           [sample_request; sample_request]
           sample_request sample_request sample_request w0).
  - reflexivity.
  - unfold Int64.in_range, Int64.min_int, Int64.max_int. lia.
  - unfold Int64.max_int. lia.
  - reflexivity.
  - reflexivity.
  - exact Hnear.
Defined.

(** ** The chain *)

Section ChainFacts.
Import dampenerPolicy.

Context {St : Type}.
Implicit Types (d : dampenerPolicy.t St) (r : Request) (x : Exchange St).
Implicit Types (T : list Call) (c : Call).




Variables (status : Z) (body : list Byte.byte).






End ChainFacts.

Section ChainTheorems.
Import dampenerPolicy.





End ChainTheorems.

(** * Further properties of the code *)

(** ** The in-memory store: appending and counting *)

Section StoreOperations.
Import MemoryStorage.

Implicit Types (w : World (gmap string (list Time))) (k : string) (l : list Time).

Lemma AppendEvent_world k (t : Time) w :
  snd (AppendEvent k t w)
  = set_heap w (<[k := log (heap w) k ++ [t]]> (heap w)).
Proof.
  pose proof (AppendEvent_heap k t w) as H.
  unfold AppendEvent in *. simpl in *. unfold set_heap in *. simpl in *.
  by rewrite H.
Qed.

(** X1. A run of [AppendEvent] calls on one key loses nothing and reorders
    nothing: the key's log is the old log followed by the timestamps in the
    order of the calls, whether the key was there before or not; the logs
    of all other keys, the clock and the output are as they were. *)
Theorem append_events_log k (ts : list Time) w :
  let w' := append_events k ts w in
  log (heap w') k = log (heap w) k ++ ts /\
  delete k (heap w') = delete k (heap w) /\
  clock w' = clock w /\ ticks w' = ticks w /\ stdout w' = stdout w.
Proof.
  revert w. induction ts as [|t ts IH]; intros w; cbn zeta.
  - unfold append_events. simpl. by rewrite app_nil_r.
  - change (append_events k (t :: ts) w)
      with (append_events k ts (snd (AppendEvent k t w))).
    destruct (IH (snd (AppendEvent k t w))) as (Hl & Hd & Hc & Ht & Ho).
    rewrite Hl, Hd, Hc, Ht, Ho. rewrite AppendEvent_world. simpl.
    rewrite log_insert_eq, delete_insert_eq.
    by rewrite <- app_assoc.
Qed.

(** X2. Appends under two different keys do not see each other: the two
    orders of the calls leave the same world. *)
Theorem AppendEvent_commute k1 k2 (t1 t2 : Time) w :
  k1 <> k2 ->
  snd (AppendEvent k2 t2 (snd (AppendEvent k1 t1 w)))
  = snd (AppendEvent k1 t1 (snd (AppendEvent k2 t2 w))).
Proof.
  intros Hne. rewrite !AppendEvent_world. unfold set_heap. simpl.
  rewrite (log_insert_ne _ k1 k2) by done.
  rewrite (log_insert_ne _ k2 k1) by done.
  f_equal. by apply insert_insert_ne.
Qed.

Lemma AppendEvent_commute_witness :
  let w := sample_world ({["a" := [1; 2]]} : gmap string (list Time)) in
  ("a" : string) <> "b" /\
  log (heap (snd (AppendEvent "b" 7 (snd (AppendEvent "a" 5 w))))) "a" = [1; 2; 5] /\
  snd (AppendEvent "b" 7 (snd (AppendEvent "a" 5 w)))
  = snd (AppendEvent "a" 5 (snd (AppendEvent "b" 7 w))).
Proof.
  intros w. split; [discriminate|]. split; [reflexivity|].
  apply AppendEvent_commute. discriminate.
Defined.

(** The counter of the scan stays between its start and the start plus the
    length of the log, for every window. *)
Lemma count_events_bounds {St} (d : Duration) l (c : Z) (w : World St) :
  0 <= c -> c + Z.of_nat (length l) <= Int64.max_int ->
  c <= fst (count_events d l c w) <= c + Z.of_nat (length l).
Proof.
  revert c w. induction l as [|v l IH]; intros c w Hc Hlen; simpl; [lia|].
  simpl in Hlen. destruct (After v _).
  - rewrite add_one_in_range by lia.
    specialize (IH (c + 1) (mkWorld (clock w) (S (ticks w)) (stdout w) (heap w))).
    lia.
  - specialize (IH c (mkWorld (clock w) (S (ticks w)) (stdout w) (heap w))).
    lia.
Qed.

(** X3. For every window, the least one included, and every clock,
    [EventsInDuration] returns no error and a count between 0 and the
    length of the key's log. *)
Theorem EventsInDuration_bounds k (d : Duration) w :
  Z.of_nat (length (log (heap w) k)) <= Int64.max_int ->
  snd (fst (EventsInDuration k d w)) = nil /\
  0 <= fst (fst (EventsInDuration k d w)) <= Z.of_nat (length (log (heap w) k)).
Proof.
  intros Hlen. split; [apply EventsInDuration_no_error|].
  unfold EventsInDuration.
  pose proof (count_events_bounds d (log (heap w) k) 0 w) as H.
  destruct (count_events d (log (heap w) k) 0 w) as [c w1]. simpl in *. lia.
Qed.

Lemma EventsInDuration_bounds_witness :
  let w := sample_world ({["ip" := [1; 9; 12]]} : gmap string (list Time)) in
  0 <= fst (fst (EventsInDuration "ip" 10 w)) <= 3.
Proof.
  intros w.
  apply (EventsInDuration_bounds "ip" 10 w). vm_compute. discriminate.
Defined.

Lemma count_as_read_mono (clk : nat -> Time) (n : nat) (d d' : Duration) l :
  d <= d' -> count_as_read clk n d l <= count_as_read clk n d' l.
Proof.
  intros Hd. revert n. induction l as [|v l IH]; intros n; simpl; [lia|].
  specialize (IH (S n)).
  destruct (Z.ltb_spec (clk n - d) v), (Z.ltb_spec (clk n - d') v); lia.
Qed.

(** X4. A longer window never counts fewer events: from the same world,
    the count for [d'] is at least the count for [d] when [d <= d']. *)
Theorem EventsInDuration_mono k (d d' : Duration) w :
  Int64.in_range d -> Int64.in_range d' -> d <> Int64.min_int -> d <= d' ->
  Z.of_nat (length (log (heap w) k)) <= Int64.max_int ->
  fst (fst (EventsInDuration k d w)) <= fst (fst (EventsInDuration k d' w)).
Proof.
  intros Hd Hd' Hmin Hle Hlen.
  rewrite !EventsInDuration_value; try done.
  - by apply count_as_read_mono.
  - unfold Int64.in_range in Hd. lia.
Qed.

Lemma EventsInDuration_mono_witness :
  let w := sample_world ({["ip" := [1; 9; 12]]} : gmap string (list Time)) in
  fst (fst (EventsInDuration "ip" 3 w)) <= fst (fst (EventsInDuration "ip" 10 w)).
Proof.
  intros w. apply EventsInDuration_mono.
  - unfold Int64.in_range, Int64.min_int, Int64.max_int. lia.
  - unfold Int64.in_range, Int64.min_int, Int64.max_int. lia.
  - unfold Int64.min_int. lia.
  - lia.
  - vm_compute. discriminate.
Defined.

Lemma count_as_read_app (clk : nat -> Time) (n : nat) (d : Duration) l l' :
  count_as_read clk n d (l ++ l')
  = count_as_read clk n d l + count_as_read clk (n + length l) d l'.
Proof.
  revert n. induction l as [|v l IH]; intros n; simpl.
  - by rewrite Nat.add_0_r.
  - rewrite IH. replace (S n + length l)%nat with (n + S (length l))%nat by lia. lia.
Qed.

(** X5. Appending and then counting. From the same state of the clock, the
    count after [AppendEvent(k, t)] is the count before it, plus one exactly
    when [t] is strictly after [now - d] for the reading [now] taken when
    the scan reaches the new, last event. *)
Theorem EventsInDuration_after_AppendEvent k (t : Time) (d : Duration) w :
  Int64.in_range d -> d <> Int64.min_int ->
  Z.of_nat (length (log (heap w) k)) < Int64.max_int ->
  fst (fst (EventsInDuration k d (snd (AppendEvent k t w))))
  = fst (fst (EventsInDuration k d w))
    + (if clock w (ticks w + length (log (heap w) k))%nat - d <? t then 1 else 0).
Proof.
  intros Hd Hmin Hlen.
  rewrite !EventsInDuration_value; try done; try lia.
  - rewrite AppendEvent_world. simpl. rewrite log_insert_eq.
    rewrite count_as_read_app. simpl. lia.
  - rewrite AppendEvent_log, length_app. simpl. lia.
Qed.

Lemma EventsInDuration_after_AppendEvent_witness :
  let w := sample_world ({["ip" := [1; 9; 12]]} : gmap string (list Time)) in
  fst (fst (EventsInDuration "ip" 10 (snd (AppendEvent "ip" 13 w))))
  = fst (fst (EventsInDuration "ip" 10 w)) + 1.
Proof.
  intros w.
  rewrite (EventsInDuration_after_AppendEvent "ip" 13 10 w).
  - reflexivity.
  - unfold Int64.in_range, Int64.min_int, Int64.max_int. lia.
  - unfold Int64.min_int. lia.
  - vm_compute. reflexivity.
Defined.

End StoreOperations.

(** ** The in-memory store: eviction *)

Section Eviction.
Import MemoryStorage.

Implicit Types (w : World (gmap string (list Time))) (k : string) (l : list Time).

(** What the loop of [Clean] finds: nothing when every event is stale, and
    otherwise the position of the first event that is not. *)
Lemma first_not_before_spec (to : Time) l (i : Z) :
  match first_not_before to l i with
  | None => Forall (fun v => v < to) l
  | Some j =>
      exists stale v rest,
        l = stale ++ v :: rest /\ Forall (fun u => u < to) stale /\
        to <= v /\ j = i + Z.of_nat (length stale)
  end.
Proof.
  revert i. induction l as [|v l IH]; intros i; simpl; [constructor|].
  unfold Before. destruct (Z.ltb_spec v to) as [Hv|Hv].
  - specialize (IH (i + 1)). destruct (first_not_before to l (i + 1)) as [j|].
    + destruct IH as (stale & u & rest & -> & Hs & Hu & ->).
      exists (v :: stale), u, rest. repeat split; try done.
      * by constructor.
      * simpl length. lia.
    + by constructor.
  - exists [], v, l. repeat split; try done. simpl. lia.
Qed.

(** X6. [Clean] panics exactly when the key's log starts with an event that
    is at or after the cutoff, and then the world is as it was. *)
Theorem Clean_panics_iff k (to : Time) w :
  (fst (Clean k to w) = Panicked <->
   exists v l, log (heap w) k = v :: l /\ to <= v) /\
  (fst (Clean k to w) = Panicked -> snd (Clean k to w) = w).
Proof.
  unfold Clean.
  pose proof (first_not_before_spec to (log (heap w) k) 0) as Hspec.
  destruct (first_not_before to (log (heap w) k) 0) as [j|].
  - destruct Hspec as (stale & v & rest & El & Hs & Hv & ->).
    rewrite El. unfold slice_from. rewrite length_app. simpl length.
    destruct stale as [|u stale]; simpl.
    + split; [|done]. split; [|done]. intros _. by exists v, rest.
    + destruct (_ || _) eqn:B.
      { apply orb_true_iff in B as [B|B]; apply Z.ltb_lt in B; lia. }
      simpl. split; [|done]. split; [done|].
      intros (v' & l' & E & Hv'). injection E as <- _.
      inversion Hs; subst. lia.
  - split; [|done]. split; [done|].
    intros (v & l & E & Hv). rewrite E in Hspec. inversion Hspec; subst. lia.
Qed.

(** X7. [Clean] never removes an event that is at or after the cutoff: when
    it returns, it returns no error, the new log is what remains of the old
    one after a run of events at its front is dropped, every one of them
    strictly older than the cutoff. *)
Theorem Clean_drops_only_stale k (to : Time) w (e : error) :
  fst (Clean k to w) = Returned e ->
  e = nil /\
  exists dropped,
    log (heap w) k = dropped ++ log (heap (snd (Clean k to w))) k /\
    Forall (fun v => v < to) dropped.
Proof.
  unfold Clean.
  pose proof (first_not_before_spec to (log (heap w) k) 0) as Hspec.
  destruct (first_not_before to (log (heap w) k) 0) as [j|].
  - destruct Hspec as (stale & v & rest & El & Hs & Hv & ->).
    unfold slice_from.
    destruct (_ || _) eqn:B; [done|]. simpl.
    intros [= <-]. split; [done|].
    apply orb_false_iff in B as [B1 B2]. apply Z.ltb_ge in B1.
    rewrite log_insert_eq.
    exists (take (Z.to_nat (0 + Z.of_nat (length stale) - 1)) (log (heap w) k)).
    split; [by rewrite take_drop|].
    rewrite El, take_app_le by lia.
    by apply Forall_take.
  - simpl. intros [= <-]. split; [done|]. by exists [].
Qed.

Lemma Clean_drops_only_stale_witness :
  let w := sample_world ({["ip" := [1; 2; 3; 8; 9]]} : gmap string (list Time)) in
  fst (Clean "ip" 5 w) = Returned nil /\
  exists dropped,
    [1; 2; 3; 8; 9] = dropped ++ log (heap (snd (Clean "ip" 5 w))) "ip" /\
    Forall (fun v => v < 5) dropped.
Proof.
  intros w. split; [reflexivity|].
  apply (Clean_drops_only_stale "ip" 5 w nil). reflexivity.
Defined.

(** X8. Calling [Clean] a second time with the same key and cutoff changes
    nothing more: it has the outcome of the first call and leaves the world
    the first call left. *)
Theorem Clean_idempotent k (to : Time) w :
  Clean k to (snd (Clean k to w)) = Clean k to w.
Proof.
  pose proof (first_not_before_spec to (log (heap w) k) 0) as Hspec.
  destruct (first_not_before to (log (heap w) k) 0) as [j|].
  - destruct Hspec as (stale & v & rest & El & Hs & Hv & _).
    destruct stale as [|u stale _] using rev_ind.
    + rewrite (Clean_fresh_head k to w v rest El Hv). simpl.
      by apply (Clean_fresh_head k to w v rest).
    + apply Forall_app in Hs as [Hs Hu]. apply Forall_inv in Hu.
      rewrite <- app_assoc in El. simpl in El.
      rewrite (Clean_stale_prefix k to w stale u v rest El Hs Hu Hv). simpl.
      rewrite (Clean_stale_prefix k to
                 (set_heap w (<[k := u :: v :: rest]> (heap w))) [] u v rest);
        [ | simpl; by rewrite log_insert_eq | constructor | done | done ].
      unfold set_heap. simpl. by rewrite insert_insert_eq.
  - rewrite (Clean_all_stale k to w Hspec). simpl. by apply Clean_all_stale.
Qed.

(** X9. Truncation leaves exactly one stale event. When the log is a run of
    stale events followed by at least one event, all of them at or after
    the cutoff, [Clean] returns no error and the new log is the last stale
    event followed by the events the cutoff retains. *)
Theorem Clean_keeps_last_stale k (to : Time) w (stale fresh : list Time) (u : Time) :
  log (heap w) k = stale ++ u :: fresh ->
  Forall (fun x => x < to) stale -> u < to ->
  Forall (fun x => to <= x) fresh -> fresh <> [] ->
  fst (Clean k to w) = Returned nil /\
  log (heap (snd (Clean k to w))) k = u :: spec_retained to (log (heap w) k).
Proof.
  intros El Hs Hu Hf Hne.
  destruct fresh as [|v fresh]; [done|].
  inversion Hf as [|? ? Hv Hf']; subst.
  rewrite (Clean_stale_prefix k to w stale u v fresh) by done.
  simpl. split; [done|]. rewrite log_insert_eq, El. f_equal.
  unfold spec_retained. rewrite filter_app.
  assert (Hnil : filter (fun x => to <= x) stale = []).
  { clear El. induction Hs as [|x stale Hx _ IH]; [done|].
    rewrite filter_cons. case_decide; [lia | done]. }
  rewrite Hnil. simpl. rewrite filter_cons. case_decide; [lia|].
  rewrite filter_cons. case_decide; [|lia]. f_equal.
  clear -Hf'. induction Hf' as [|x fresh Hx _ IH]; [done|].
  rewrite filter_cons. case_decide; [by f_equal | lia].
Qed.

Lemma Clean_keeps_last_stale_witness :
  let w := sample_world ({["ip" := [1; 2; 3; 8; 9]]} : gmap string (list Time)) in
  fst (Clean "ip" 5 w) = Returned nil /\
  log (heap (snd (Clean "ip" 5 w))) "ip" = 3 :: spec_retained 5 [1; 2; 3; 8; 9].
Proof.
  intros w.
  apply (Clean_keeps_last_stale "ip" 5 w [1; 2] [8; 9] 3).
  - reflexivity.
  - repeat constructor.
  - lia.
  - repeat constructor; lia.
  - discriminate.
Defined.

(** X10. A turn of the clean-up loop evicts nothing when every event under
    the rule's prefix was stamped strictly before the reading the turn
    takes: it returns no error and the store is as it was, one reading of
    the clock apart. *)
Theorem clean_up_turn_evicts_nothing (prefix : string) (max : Z)
    (duration : Duration) (f : Request -> bool) w :
  Forall (fun v => v < current_time w) (log (heap w) prefix) ->
  clean_up_turn
    (newDampenerThrottleOptions prefix max duration f MemoryStorage.storage) w
  = (Returned nil, snd (Now w)).
Proof.
  intros H. unfold clean_up_turn. simpl.
  by apply Clean_all_stale.
Qed.

Lemma clean_up_turn_evicts_nothing_witness :
  let w := sample_world ({["ip" := [1; 2; 3; 8; 9]]} : gmap string (list Time)) in
  clean_up_turn
    (newDampenerThrottleOptions "ip" 100 60000000000 (fun _ => true)
       MemoryStorage.storage) w
  = (Returned nil, snd (Now w)).
Proof.
  intros w. apply clean_up_turn_evicts_nothing.
  repeat constructor.
Defined.

End Eviction.

(** ** The decision of a rule over the in-memory store *)

Section Decision.
Import MemoryStorage.

Implicit Types (w : World (gmap string (list Time))) (l : list Time).

Variables (prefix : string) (max : Z) (D : Duration) (f : Request -> bool).

Local Abbreviation options :=
  (newDampenerThrottleOptions prefix max D f MemoryStorage.storage).

Lemma EventsInDuration_count_range k (d : Duration) w :
  Z.of_nat (length (log (heap w) k)) <= Int64.max_int ->
  0 <= fst (fst (EventsInDuration k d w)) <= Z.of_nat (length (log (heap w) k)).
Proof.
  intros Hlen. unfold EventsInDuration.
  pose proof (count_events_bounds d (log (heap w) k) 0 w) as H.
  destruct (count_events d (log (heap w) k) 0 w) as [c w1]. simpl in *. lia.
Qed.

(** For a request the rule classifies, the decision is the comparison of
    the store's count with the threshold, and there is no error. *)
Lemma ShouldThrottle_decision (r : Request) w :
  f r = true ->
  fst (dampenerThrottle.ShouldThrottle options r w)
  = (Int64.of_int max <? fst (fst (EventsInDuration prefix D w)), nil).
Proof.
  intros Hf. unfold dampenerThrottle.ShouldThrottle. simpl. rewrite Hf.
  pose proof (EventsInDuration_no_error prefix D w) as He.
  destruct (EventsInDuration prefix D w) as [[count err] w1].
  simpl in *. subst err. unfold nil. by destruct (_ <? _).
Qed.

Lemma count_as_read_none (clk : nat -> Time) (n : nat) l :
  (forall i v, l !! i = Some v -> v <= clk (n + i)%nat - D) ->
  count_as_read clk n D l = 0.
Proof.
  revert n. induction l as [|v l IH]; intros n H; [done|].
  simpl count_as_read.
  rewrite IH by (intros i u Hi; specialize (H (S i) u Hi);
                 by replace (S n + i)%nat with (n + S i)%nat by lia).
  specialize (H 0%nat v eq_refl). rewrite Nat.add_0_r in H.
  destruct (Z.ltb_spec (clk n - D) v); lia.
Qed.

(** X11. A rule never throttles while the log of its prefix holds no more
    events than its threshold, whatever the window, the clock and the
    request are. *)
Theorem ShouldThrottle_under_threshold (r : Request) w :
  Int64.in_range max ->
  Z.of_nat (length (log (heap w) prefix)) <= max ->
  fst (dampenerThrottle.ShouldThrottle options r w) = (false, nil).
Proof.
  intros Hmax Hlen.
  destruct (f r) eqn:Hf.
  - rewrite ShouldThrottle_decision by done.
    unfold Int64.of_int. rewrite wrap_in_range by done.
    pose proof (EventsInDuration_count_range prefix D w) as Hc.
    unfold Int64.in_range in Hmax.
    destruct (Z.ltb_spec max (fst (fst (EventsInDuration prefix D w)))); [lia | done].
  - unfold dampenerThrottle.ShouldThrottle. simpl. by rewrite Hf.
Qed.

(** X12. A rule with a negative threshold throttles every request it
    classifies, on an empty store as on any other. *)
Theorem ShouldThrottle_negative_threshold (r : Request) w :
  Int64.in_range max -> max < 0 -> f r = true ->
  Z.of_nat (length (log (heap w) prefix)) <= Int64.max_int ->
  fst (dampenerThrottle.ShouldThrottle options r w) = (true, nil).
Proof.
  intros Hmax Hneg Hf Hlen.
  rewrite ShouldThrottle_decision by done.
  unfold Int64.of_int. rewrite wrap_in_range by done.
  pose proof (EventsInDuration_count_range prefix D w Hlen) as Hc.
  destruct (Z.ltb_spec max (fst (fst (EventsInDuration prefix D w)))); [done | lia].
Qed.

(** X13. Once the window has passed over every event, the rule lets
    requests through again: when each event of the prefix's log is at or
    before [now - D] for the reading [now] the scan takes at it, a rule
    with a threshold of zero or more does not throttle, however long the
    log is. *)
Theorem ShouldThrottle_after_window (r : Request) w :
  Int64.in_range D -> D <> Int64.min_int ->
  Int64.in_range max -> 0 <= max ->
  Z.of_nat (length (log (heap w) prefix)) <= Int64.max_int ->
  (forall i v, log (heap w) prefix !! i = Some v ->
     v <= clock w (ticks w + i)%nat - D) ->
  fst (dampenerThrottle.ShouldThrottle options r w) = (false, nil).
Proof.
  intros HD Hmin Hmax Hpos Hlen Hold.
  destruct (f r) eqn:Hf.
  - rewrite ShouldThrottle_decision by done.
    unfold Int64.of_int. rewrite wrap_in_range by done.
    rewrite EventsInDuration_value by done.
    rewrite count_as_read_none by done.
    destruct (Z.ltb_spec max 0); [lia | done].
  - unfold dampenerThrottle.ShouldThrottle. simpl. by rewrite Hf.
Qed.

End Decision.

Lemma ShouldThrottle_under_threshold_witness :
  let w := sample_world ({["ip" := [10; 11; 12]]} : gmap string (list Time)) in
  fst (dampenerThrottle.ShouldThrottle
         (newDampenerThrottleOptions "ip" 3 60000000000 (fun _ => true)
            MemoryStorage.storage) sample_request w)
  = (false, nil).
Proof.
  intros w. apply ShouldThrottle_under_threshold.
  - unfold Int64.in_range, Int64.min_int, Int64.max_int. lia.
  - vm_compute. discriminate.
Defined.

Lemma ShouldThrottle_negative_threshold_witness :
  fst (dampenerThrottle.ShouldThrottle
         (newDampenerThrottleOptions "ip" (-1) 60000000000 (fun _ => true)
            MemoryStorage.storage) sample_request
         (sample_world MemoryStorage.NewMemoryStorage))
  = (true, nil).
Proof.
  apply ShouldThrottle_negative_threshold.
  - unfold Int64.in_range, Int64.min_int, Int64.max_int. lia.
  - lia.
  - reflexivity.
  - vm_compute. discriminate.
Defined.

Lemma ShouldThrottle_after_window_witness :
  let w := sample_world ({["ip" := [1; 2; 3]]} : gmap string (list Time)) in
  fst (dampenerThrottle.ShouldThrottle
         (newDampenerThrottleOptions "ip" 1 10 (fun _ => true)
            MemoryStorage.storage) sample_request w)
  = (false, nil).
Proof.
  intros w. apply ShouldThrottle_after_window.
  - unfold Int64.in_range, Int64.min_int, Int64.max_int. lia.
  - unfold Int64.min_int. lia.
  - unfold Int64.in_range, Int64.min_int, Int64.max_int. lia.
  - lia.
  - vm_compute. discriminate.
  - intros i v Hi.
    destruct i as [|[|[|i]]]; simpl in Hi; try discriminate;
      injection Hi as <-; vm_compute; discriminate.
Defined.

(** ** The chain: what a request leaves behind *)

Section ChainRuns.
Import dampenerPolicy.

Variables (status : Z) (body : list Byte.byte).



End ChainRuns.

Section ChainRunTheorems.
Import dampenerPolicy.





End ChainRunTheorems.

(** ** One rule in front of a handler, request after request *)

Section SingleRule.
Import MemoryStorage dampenerPolicy.

Implicit Types (w : World (gmap string (list Time))) (r : Request).

Lemma ServeHTTP_single {St} (next : Request -> World St -> World St)
    (opts : ThrottlerOptions.t) (t0 : Throttle.t St) (r : Request) (w : World St) :
  ServeHTTP (newDampenerPolicy next opts [t0]) r w
  = if fst (fst (Throttle.ShouldThrottle t0 r w))
    then mkExchange
           [CallShouldThrottle 0 true (snd (fst (Throttle.ShouldThrottle t0 r w)));
            CallLogPrintf "should throttle, sending response";
            CallWriteHeader (ThrottlerOptions.GetStatus opts);
            CallWrite (ThrottlerOptions.GetMessage opts)]
           (snd (Throttle.ShouldThrottle t0 r w))
    else mkExchange
           [CallShouldThrottle 0 false (snd (fst (Throttle.ShouldThrottle t0 r w)));
            CallAppendEvent 0; CallNext]
           (next r (Throttle.AppendEvent t0 r (snd (Throttle.ShouldThrottle t0 r w)))).
Proof.
  unfold ServeHTTP. simpl.
  destruct (Throttle.ShouldThrottle t0 r w) as [[yes err] w1].
  by destruct yes.
Qed.

Variables (prefix : string) (N : nat) (D : Duration) (f : Request -> bool).
Variables (next : Request -> World (gmap string (list Time))
                  -> World (gmap string (list Time))).
Variables (status : Z) (body : list Byte.byte).
Variable w0 : World (gmap string (list Time)).

Hypothesis Hf : forall r, f r = true.
Hypothesis HD : Int64.in_range D.
Hypothesis HN : Z.of_nat N < Int64.max_int.
Hypothesis Hnext : forall r w, clock (next r w) = clock w /\ heap (next r w) = heap w.
Hypothesis Hnear : forall i j, clock w0 j - clock w0 i < D.

Local Abbreviation options :=
  (newDampenerThrottleOptions prefix (Z.of_nat N) D f MemoryStorage.storage).
Local Abbreviation policy :=
  (newDampenerPolicy next (newDampenerPolicyOptions status body)
     [dampenerThrottle.newDampenerThrottle options]).

(** The world is one the run can reach with [m] requests let through: the
    clock is the one of [w0] and the prefix's log holds [m] of its
    readings. *)
Local Abbreviation reached w m :=
  (clock w = clock w0 /\
   length (log (heap w) prefix) = m /\
   Forall (fun v => exists i, v = clock w0 i) (log (heap w) prefix)).

Lemma decision_when_reached r w (m : nat) :
  reached w m -> (m <= S N)%nat ->
  dampenerThrottle.ShouldThrottle options r w
  = ((Z.of_nat N <? Z.of_nat m, nil),
     Println (Z.of_nat N) (Z.of_nat m)
       (mkWorld (clock w) (ticks w + m)%nat (stdout w) (heap w))).
Proof.
  intros (Hc & Hlen & Hall) Hm.
  assert (HDpos : 0 < D) by (specialize (Hnear 0%nat 0%nat); lia).
  assert (Hmin : D <> Int64.min_int) by (unfold Int64.min_int; lia).
  rewrite (ShouldThrottle_memory prefix (Z.of_nat N) D f r w (Hf r) HD Hmin)
    by (rewrite Hlen; lia).
  rewrite Hlen.
  rewrite count_as_read_all.
  - rewrite Hlen. unfold Int64.of_int. rewrite wrap_in_range; [done|].
    unfold Int64.in_range, Int64.min_int, Int64.max_int in *. lia.
  - intros i v Hi. rewrite Forall_forall in Hall.
    destruct (Hall v) as (idx & ->); [by eapply list_elem_of_lookup_2|].
    rewrite Hc. specialize (Hnear idx (ticks w + i)%nat). lia.
Qed.

Lemma served_when_below r w (m : nat) :
  reached w m -> (m <= N)%nat ->
  calls (ServeHTTP policy r w)
  = [CallShouldThrottle 0 false nil; CallAppendEvent 0; CallNext] /\
  reached (world (ServeHTTP policy r w)) (S m).
Proof.
  intros Hr Hm. rewrite ServeHTTP_single.
  change (Throttle.ShouldThrottle (dampenerThrottle.newDampenerThrottle options))
    with (dampenerThrottle.ShouldThrottle options).
  change (Throttle.AppendEvent (dampenerThrottle.newDampenerThrottle options))
    with (dampenerThrottle.AppendEvent options).
  rewrite (decision_when_reached r w m Hr) by lia.
  destruct Hr as (Hc & Hlen & Hall).
  destruct (Z.ltb_spec (Z.of_nat N) (Z.of_nat m)); [lia|].
  cbn [fst snd]. split; [done|].
  cbn [world]. rewrite rule_AppendEvent_memory.
  match goal with
  | |- context [next r ?w1] => destruct (Hnext r w1) as (Hc' & Hh')
  end.
  rewrite Hc', Hh'. simpl. rewrite log_insert_eq.
  split; [done|]. split.
  - rewrite length_app, Hlen. simpl. lia.
  - apply Forall_app. split; [done|].
    constructor; [|done]. rewrite Hc. by eexists.
Qed.

Lemma served_when_above r w (m : nat) :
  reached w m -> (m = S N)%nat ->
  calls (ServeHTTP policy r w)
  = [CallShouldThrottle 0 true nil;
     CallLogPrintf "should throttle, sending response";
     CallWriteHeader status; CallWrite body] /\
  heap (world (ServeHTTP policy r w)) = heap w.
Proof.
  intros Hr Hm. rewrite ServeHTTP_single.
  change (Throttle.ShouldThrottle (dampenerThrottle.newDampenerThrottle options))
    with (dampenerThrottle.ShouldThrottle options).
  rewrite (decision_when_reached r w m Hr) by lia.
  destruct (Z.ltb_spec (Z.of_nat N) (Z.of_nat m)); [|lia].
  by cbn [fst snd].
Qed.

Lemma serve_requests_below (rs : list Request) w (m : nat) :
  reached w m -> (m + length rs <= S N)%nat ->
  Forall (fun cs => cs = [CallShouldThrottle 0 false nil; CallAppendEvent 0; CallNext])
    (fst (serve_requests policy rs w)) /\
  length (fst (serve_requests policy rs w)) = length rs /\
  reached (snd (serve_requests policy rs w)) (m + length rs)%nat.
Proof.
  revert w m. induction rs as [|r rs IH]; intros w m Hr Hm.
  - simpl. rewrite Nat.add_0_r. split; [constructor|]. split; [done | exact Hr].
  - simpl in Hm.
    destruct (served_when_below r w m Hr) as (Hcalls & Hr'); [lia|].
    specialize (IH (world (ServeHTTP policy r w)) (S m) Hr').
    destruct IH as (Hall & Hlen & Hend); [lia|].
    simpl serve_requests.
    destruct (serve_requests policy rs (world (ServeHTTP policy r w))) as [cs w'].
    simpl in *. split; [|split].
    + by constructor.
    + lia.
    + by replace (m + S (length rs))%nat with (S m + length rs)%nat by lia.
Qed.

End SingleRule.

(** X16. One rule with threshold [N] and window [D] over the in-memory
    store, in front of a handler that leaves the clock and the store alone,
    classifying every request and starting with no event under its prefix,
    all readings of the clock less than [D] apart. The first [N + 1]
    requests are let through, each recorded and handed to the handler; the
    request after them is rejected with the configured status and body, and
    the rejected request is not recorded. *)
Theorem single_rule_allows_then_rejects (prefix : string) (N : nat)
    (D : Duration) (f : Request -> bool)
    (next : Request -> World (gmap string (list Time))
            -> World (gmap string (list Time)))
    (status : Z) (body : list Byte.byte)
    (w0 : World (gmap string (list Time))) (rs : list Request) (r : Request) :
  (forall r, f r = true) ->
  Int64.in_range D ->
  Z.of_nat N < Int64.max_int ->
  (forall r w, clock (next r w) = clock w /\ heap (next r w) = heap w) ->
  (forall i j, clock w0 j - clock w0 i < D) ->
  MemoryStorage.log (heap w0) prefix = [] ->
  length rs = S N ->
  let d := newDampenerPolicy next (newDampenerPolicyOptions status body)
             [dampenerThrottle.newDampenerThrottle
                (newDampenerThrottleOptions prefix (Z.of_nat N) D f
                   MemoryStorage.storage)] in
  let w1 := snd (serve_requests d rs w0) in
  length (fst (serve_requests d rs w0)) = S N /\
  Forall (fun cs => cs = [CallShouldThrottle 0 false nil; CallAppendEvent 0; CallNext])
    (fst (serve_requests d rs w0)) /\
  calls (dampenerPolicy.ServeHTTP d r w1)
  = [CallShouldThrottle 0 true nil;
     CallLogPrintf "should throttle, sending response";
     CallWriteHeader status; CallWrite body] /\
  heap (world (dampenerPolicy.ServeHTTP d r w1)) = heap w1.
Proof.
  intros Hf HD HN Hnext Hnear Hempty Hrs. cbn zeta.
  destruct (serve_requests_below prefix N D f next status body w0
              Hf HD HN Hnext Hnear rs w0 0) as (Hall & Hlen & Hend).
  { rewrite Hempty. by repeat split. }
  { simpl. lia. }
  split; [by rewrite Hlen|]. split; [done|].
  apply (served_when_above prefix N D f next status body w0
           Hf HD HN Hnear r _ (0 + length rs)); [exact Hend | lia].
Qed.

Lemma single_rule_allows_then_rejects_witness :
  let d := newDampenerPolicy (fun _ w => w) (newDampenerPolicyOptions 429 [])
             [dampenerThrottle.newDampenerThrottle
                (newDampenerThrottleOptions "ip" 1 60000000000 (fun _ => true)
                   MemoryStorage.storage)] in
  let w0 := mkWorld (fun _ => 20) 0 [] MemoryStorage.NewMemoryStorage in
  let w1 := snd (serve_requests d [sample_request; sample_request] w0) in
  calls (dampenerPolicy.ServeHTTP d sample_request w1)
  = [CallShouldThrottle 0 true nil;
     CallLogPrintf "should throttle, sending response";
     CallWriteHeader 429; CallWrite []].
Proof.
  intros d w0 w1.
  apply (single_rule_allows_then_rejects "ip" 1 60000000000 (fun _ => true)
           (fun _ w => w) 429 [] w0 [sample_request; sample_request] sample_request).
  - reflexivity.
  - unfold Int64.in_range, Int64.min_int, Int64.max_int. lia.
  - unfold Int64.max_int. lia.
  - by intros.
  - intros i j. simpl. lia.
  - reflexivity.
  - reflexivity.
Defined.

(** ** A rule over a storage no mock is set on *)

(** X17. A [MockStorage] with no function set counts nothing and stores
    nothing: a rule over it with a threshold of zero or more never
    throttles and returns no error, and its [AppendEvent] changes nothing
    but the clock it reads once. *)
Theorem unset_mock_never_throttles (prefix : string) (max : Z)
    (duration : Duration) (f : Request -> bool) (r : Request) (w : World unit) :
  Int64.in_range max -> 0 <= max ->
  let options := newDampenerThrottleOptions prefix max duration f
                   (MockStorage.storage (MockStorage.mk None None None)) in
  fst (dampenerThrottle.ShouldThrottle options r w) = (false, nil) /\
  heap (snd (dampenerThrottle.ShouldThrottle options r w)) = heap w /\
  dampenerThrottle.AppendEvent options r w = snd (Now w).
Proof.
  intros Hmax Hpos options.
  unfold dampenerThrottle.ShouldThrottle, dampenerThrottle.AppendEvent. simpl.
  unfold Int64.of_int. rewrite wrap_in_range by done.
  destruct (f r); [|done].
  destruct (Z.ltb_spec max 0); [lia | done].
Qed.

Lemma unset_mock_never_throttles_witness :
  fst (dampenerThrottle.ShouldThrottle
         (newDampenerThrottleOptions "ip" 0 60000000000 (fun _ => true)
            (MockStorage.storage (MockStorage.mk None None None)))
         sample_request (sample_world tt))
  = (false, nil).
Proof.
  apply (unset_mock_never_throttles "ip" 0 60000000000 (fun _ => true)
           sample_request (sample_world tt)).
  - unfold Int64.in_range, Int64.min_int, Int64.max_int. lia.
  - lia.
Defined.
